(** * LangGraph_101: the two-step message pipeline of 01.1-graph_basics-v4.py

    The script wires two node functions, [process_node] and
    [finalize_node], into a linear graph, runs it on the state
    [{"messages": []}] and prints the result.  Both nodes mutate the
    list stored under the key "messages" in place and return the very
    state object they were given, so the development models Python's
    object store explicitly: values are immediate or references, lists
    and dicts live in a heap, and every operation threads the heap and
    may raise. *)

From Stdlib Require Import ZArith String Ascii.
From stdpp Require Import base list strings pretty.

Open Scope string_scope.
Open Scope list_scope.

(** ** Values, objects and the heap *)

(** Locations are indices into the heap. *)
Abbreviation loc := nat.

(** Immediate values and references to heap objects. *)
Inductive value : Type :=
| VNone
| VBool (b : bool)
| VInt (z : Z)
| VStr (s : string)
| VRef (l : loc).

(** Mutable objects.  A dict keeps its entries in insertion order. *)
Inductive object : Type :=
| OList (items : list value)
| ODict (entries : list (string * value)).

(** The heap is indexed by location; allocation extends it at the end and
    nothing is ever freed. *)
Abbreviation heap := (list object).

Inductive exn : Type :=
| KeyError (key : string)
| TypeError
| AttributeError (attr : string)
| ValueError (msg : string)
| RecursionError
| DanglingRef (l : loc).

Inductive outcome (A : Type) : Type :=
| Ok (a : A) (h : heap)
| Raise (e : exn) (h : heap).
Arguments Ok {A} a h.
Arguments Raise {A} e h.

(** Computations over the heap that may raise. *)
Definition M (A : Type) : Type := heap -> outcome A.

Definition ret {A} (a : A) : M A := fun h => Ok a h.

Definition raise {A} (e : exn) : M A := fun h => Raise e h.

Definition bind {A B} (m : M A) (k : A -> M B) : M B :=
  fun h =>
    match m h with
    | Ok a h' => k a h'
    | Raise e h' => Raise e h'
    end.

Notation "x <- c1 ;; c2" := (bind c1 (fun x => c2))
  (at level 90, c1 at next level, right associativity).
Notation "c1 ;;; c2" := (bind c1 (fun _ => c2))
  (at level 90, right associativity).

(** [d[k]] on the entries of a dict: the first entry with that key. *)
Fixpoint dict_get (d : list (string * value)) (k : string) : option value :=
  match d with
  | [] => None
  | (k', v) :: d' => if String.eqb k' k then Some v else dict_get d' k
  end.

(** Evaluating a list or dict display allocates a fresh object. *)
Definition alloc (o : object) : M value :=
  fun h => Ok (VRef (length h)) (h ++ [o]).

(** [v[k]] with a string key. *)
Definition getitem (v : value) (k : string) : M value :=
  fun h =>
    match v with
    | VRef l =>
        match h !! l with
        | Some (ODict d) =>
            match dict_get d k with
            | Some x => Ok x h
            | None => Raise (KeyError k) h
            end
        | Some (OList _) => Raise TypeError h
        | None => Raise (DanglingRef l) h
        end
    | _ => Raise TypeError h
    end.

(** [v.append(x)]: only lists have the method; the list object is updated
    in place. *)
Definition list_append (v x : value) : M unit :=
  fun h =>
    match v with
    | VRef l =>
        match h !! l with
        | Some (OList items) => Ok tt (<[l := OList (items ++ [x])]> h)
        | Some (ODict _) => Raise (AttributeError "append") h
        | None => Raise (DanglingRef l) h
        end
    | _ => Raise (AttributeError "append") h
    end.

(** ** The node functions *)

Definition processed_message : list (string * value) :=
  [("content", VStr "Processed message"); ("status", VStr "processed")].

Definition finalized_message : list (string * value) :=
  [("content", VStr "Finalized message"); ("status", VStr "finalized")].

Definition process_node (state : value) : M value :=
  new_message <- alloc (ODict processed_message) ;;
  messages <- getitem state "messages" ;;
  list_append messages new_message ;;;
  ret state.

Definition finalize_node (state : value) : M value :=
  final_message <- alloc (ODict finalized_message) ;;
  messages <- getitem state "messages" ;;
  list_append messages final_message ;;;
  ret state.

(** ** Reading a state *)

(** The list object behind [state["messages"]] and its items, when the
    state is a dict whose "messages" entry refers to a list. *)
Definition state_messages (h : heap) (st : value) : option (loc * list value) :=
  match st with
  | VRef ls =>
      match h !! ls with
      | Some (ODict d) =>
          match dict_get d "messages" with
          | Some (VRef lm) =>
              match h !! lm with
              | Some (OList items) => Some (lm, items)
              | _ => None
              end
          | _ => None
          end
      | _ => None
      end
  | _ => None
  end.

Definition is_valid_state (h : heap) (st : value) : bool :=
  match state_messages h st with Some _ => true | None => false end.

(** The dict entries of the record a value refers to. *)
Definition record_at (h : heap) (v : value) : option (list (string * value)) :=
  match v with
  | VRef l => match h !! l with Some (ODict d) => Some d | _ => None end
  | _ => None
  end.

(** The record most recently appended to the messages of the state a node
    returned. *)
Definition appended_record (f : value -> M value) (st : value) (h : heap)
  : option (list (string * value)) :=
  match f st h with
  | Ok st' h' =>
      match state_messages h' st' with
      | Some (_, items) =>
          match last items with
          | Some v => record_at h' v
          | None => None
          end
      | None => None
      end
  | Raise _ _ => None
  end.

(** ** The graph runner *)

(** Modelled from the spec: the graph-execution collaborator
    (langgraph.graph.StateGraph), which the script imports and whose code is
    not part of the repository.  Section 4.3 gives its contract: register
    named steps, register a directed transition, designate the entry and
    the finish step, compile the registration into an executable unit, and
    invoke the unit on an initial state, returning the state produced after
    the finish step completes.  The state is passed to each step by
    reference (section 2), a failure inside a step is not handled
    (section 7), and a malformed topology surfaces as a failure of the
    collaborator. *)
Record StateGraph : Type := mkStateGraph {
  nodes : list (string * (value -> M value));
  edges : list (string * string);
  entry_point : option string;
  finish_point : option string
}.

(** Modelled from the spec: an empty registration (section 4.3). *)
Definition StateGraph_new : StateGraph :=
  mkStateGraph [] [] None None.

(** Modelled from the spec: register a named step (section 4.3). *)
Definition add_node (name : string) (fn : value -> M value) (g : StateGraph)
  : StateGraph :=
  mkStateGraph (nodes g ++ [(name, fn)]) (edges g) (entry_point g) (finish_point g).

(** Modelled from the spec: register a directed transition (section 4.3). *)
Definition add_edge (src dst : string) (g : StateGraph) : StateGraph :=
  mkStateGraph (nodes g) (edges g ++ [(src, dst)]) (entry_point g) (finish_point g).

(** Modelled from the spec: designate the first step executed (section 4.3). *)
Definition set_entry_point (name : string) (g : StateGraph) : StateGraph :=
  mkStateGraph (nodes g) (edges g) (Some name) (finish_point g).

(** Modelled from the spec: designate the terminal step (section 4.3). *)
Definition set_finish_point (name : string) (g : StateGraph) : StateGraph :=
  mkStateGraph (nodes g) (edges g) (entry_point g) (Some name).

Fixpoint assoc {A} (l : list (string * A)) (k : string) : option A :=
  match l with
  | [] => None
  | (k', a) :: l' => if String.eqb k' k then Some a else assoc l' k
  end.

(** Modelled from the spec: the executable unit, a linear chain of named
    steps (sections 2 and 9: the runner executes the steps in sequence from
    the entry step to the finish step). *)
Record CompiledGraph : Type := mkCompiledGraph {
  steps : list (string * (value -> M value))
}.

(** Modelled from the spec: the chain from [cur] to [finish] along the
    registered transitions.  A linear chain visits every registered step at
    most once, so the number of registered steps bounds its length; a name
    that was never registered, a step without a transition before the
    finish step, or a chain that does not reach the finish step within that
    bound has no plan. *)
Fixpoint plan (fuel : nat) (g : StateGraph) (finish cur : string)
  : option (list (string * (value -> M value))) :=
  match fuel with
  | O => None
  | S fuel' =>
      match assoc (nodes g) cur with
      | None => None
      | Some fn =>
          if String.eqb cur finish then Some [(cur, fn)]
          else
            match assoc (edges g) cur with
            | None => None
            | Some nxt =>
                match plan fuel' g finish nxt with
                | None => None
                | Some rest => Some ((cur, fn) :: rest)
                end
            end
      end
  end.

(** Modelled from the spec: compile the registration into an executable
    unit (section 4.3); a malformed registration is a failure raised by the
    collaborator. *)
Definition compile (g : StateGraph) : M CompiledGraph :=
  match entry_point g, finish_point g with
  | Some entry, Some finish =>
      match plan (length (nodes g)) g finish entry with
      | Some ss => ret (mkCompiledGraph ss)
      | None => raise (ValueError "malformed graph")
      end
  | _, _ => raise (ValueError "malformed graph")
  end.

(** Modelled from the spec: run the steps in sequence, each on the state the
    previous one returned (section 2: "output feeds into step 2"). *)
Fixpoint run_steps (ss : list (string * (value -> M value))) (st : value)
  : M value :=
  match ss with
  | [] => ret st
  | (_, fn) :: ss' => st' <- fn st ;; run_steps ss' st'
  end.

(** Modelled from the spec: invoke the executable unit on an initial state
    and return the state produced after the finish step (section 4.3). *)
Definition invoke (c : CompiledGraph) (st : value) : M value :=
  run_steps (steps c) st.

(** ** The script's graph *)

Definition graph : StateGraph :=
  set_finish_point "finalize"
    (set_entry_point "process"
       (add_edge "process" "finalize"
          (add_node "finalize" finalize_node
             (add_node "process" process_node StateGraph_new)))).

Definition app : M CompiledGraph := compile graph.

Definition app_invoke (st : value) : M value :=
  c <- app ;; invoke c st.

(** The display [{"messages": []}]: the empty list is evaluated first, then
    the dict holding it. *)
Definition initial_state : M value :=
  messages <- alloc (OList []) ;;
  alloc (ODict [("messages", messages)]).

(** ** Rendering values: [repr], [str] and [print] *)

(** A value read off the heap.  The two cycle markers stand for a list or
    dict met again while it is being rendered, which [repr] prints as
    [[...]] and [{...}]. *)
#[local] Set Warnings "-register-all".
Inductive tree : Type :=
| TNone
| TBool (b : bool)
| TInt (z : Z)
| TStr (s : string)
| TList (ts : list tree)
| TDict (kvs : list (string * tree))
| TListCycle
| TDictCycle.

(** Follow references from [v], cutting at the objects in [active] (those
    being rendered).  Every descent adds a location to [active], so a fuel
    above the size of the heap is never used up on a heap without dangling
    references. *)
Fixpoint snapshot (fuel : nat) (h : heap) (active : list loc) (v : value)
  : option tree :=
  match v with
  | VNone => Some TNone
  | VBool b => Some (TBool b)
  | VInt z => Some (TInt z)
  | VStr s => Some (TStr s)
  | VRef l =>
      match fuel with
      | O => None
      | S fuel' =>
          match h !! l with
          | None => None
          | Some (OList items) =>
              if bool_decide (l ∈ active) then Some TListCycle
              else TList <$> mapM (snapshot fuel' h (l :: active)) items
          | Some (ODict d) =>
              if bool_decide (l ∈ active) then Some TDictCycle
              else
                TDict <$>
                  mapM (fun kv => pair (fst kv) <$>
                                    snapshot fuel' h (l :: active) (snd kv)) d
          end
      end
  end.

Definition view (h : heap) (v : value) : option tree :=
  snapshot (S (length h)) h [] v.

Definition dquote : ascii := ascii_of_nat 34.
Definition squote : ascii := ascii_of_nat 39.
Definition backslash : ascii := ascii_of_nat 92.
Definition newline : string := String (ascii_of_nat 10) EmptyString.

Fixpoint contains_char (c : ascii) (s : string) : bool :=
  match s with
  | EmptyString => false
  | String c' s' => Ascii.eqb c c' || contains_char c s'
  end.

Definition hex_digit (n : nat) : ascii :=
  match String.get n "0123456789abcdef" with
  | Some c => c
  | None => "0"%char
  end.

(** One character of a string literal delimited by [q].  Bytes from 128 up
    are taken to encode printable characters and are kept. *)
Definition repr_char (q c : ascii) : string :=
  let n := nat_of_ascii c in
  if Ascii.eqb c q || Ascii.eqb c backslash then String backslash (String c EmptyString)
  else if Nat.eqb n 9 then "\t"
  else if Nat.eqb n 10 then "\n"
  else if Nat.eqb n 13 then "\r"
  else if Nat.ltb n 32 || Nat.eqb n 127 then
    "\x" +:+ String (hex_digit (n / 16)) (String (hex_digit (n mod 16)) EmptyString)
  else String c EmptyString.

Fixpoint repr_chars (q : ascii) (s : string) : string :=
  match s with
  | EmptyString => EmptyString
  | String c s' => repr_char q c +:+ repr_chars q s'
  end.

(** [repr] of a string: single quotes, unless the string has a single quote
    and no double quote. *)
Definition repr_str (s : string) : string :=
  let q := if contains_char squote s && negb (contains_char dquote s)
           then dquote else squote in
  String q (repr_chars q s +:+ String q EmptyString).

Fixpoint repr_tree (t : tree) : string :=
  match t with
  | TNone => "None"
  | TBool true => "True"
  | TBool false => "False"
  | TInt z => pretty z
  | TStr s => repr_str s
  | TList ts => "[" +:+ String.concat ", " (map repr_tree ts) +:+ "]"
  | TDict kvs =>
      "{" +:+
      String.concat ", "
        (map (fun kv => repr_str (fst kv) +:+ ": " +:+ repr_tree (snd kv)) kvs)
      +:+ "}"
  | TListCycle => "[...]"
  | TDictCycle => "{...}"
  end.

Definition py_repr (v : value) : M string :=
  fun h =>
    match view h v with
    | Some t => Ok (repr_tree t) h
    | None => Raise RecursionError h
    end.

Definition py_str (v : value) : M string :=
  match v with
  | VStr s => ret s
  | _ => py_repr v
  end.

(** [print(a, b)]: the text written to standard output. *)
Definition print2 (a b : value) : M string :=
  sa <- py_str a ;;
  sb <- py_str b ;;
  ret (sa +:+ " " +:+ sb +:+ newline).

(** ** The script *)

Record process_result : Type := mkProcessResult {
  stdout : string;
  uncaught : option exn;
  exit_code : Z
}.

(** The module body, with the expression building the initial state as a
    parameter.  [print] is its last statement, so the text it returns is
    all that the script writes. *)
Definition script_body (init : M value) : M string :=
  app' <- app ;;
  initial_state' <- init ;;
  result <- invoke app' initial_state' ;;
  print2 (VStr "Final state after graph execution:") result.

(** The interpreter starts from an empty heap, exits with 0 when the module
    body completes and with 1 on an exception nobody caught. *)
Definition run_script (body : M string) : process_result :=
  match body [] with
  | Ok out _ => mkProcessResult out None 0
  | Raise e _ => mkProcessResult "" (Some e) 1
  end.

Definition main : process_result := run_script (script_body initial_state).

Fixpoint count_char (c : ascii) (s : string) : nat :=
  match s with
  | EmptyString => 0
  | String c' s' => (if Ascii.eqb c c' then 1 else 0) + count_char c s'
  end.

(** The common shape of the two node functions, used to reason about both
    at once. *)
Definition append_step (rec : list (string * value)) (state : value) : M value :=
  new_message <- alloc (ODict rec) ;;
  messages <- getitem state "messages" ;;
  list_append messages new_message ;;;
  ret state.

(** The heap a step leaves: the new record at the first free location, and
    the messages list extended by a reference to it. *)
Definition heap_after (h : heap) (rec : list (string * value)) (lm : loc)
    (items : list value) : heap :=
  <[lm := OList (items ++ [VRef (length h)])]> (h ++ [ODict rec]).

(** The heap the two steps leave, in the order the script wires them. *)
Definition heap_final (h : heap) (lm : loc) (items : list value) : heap :=
  heap_after (heap_after h processed_message lm items) finalized_message lm
    (items ++ [VRef (length h)]).

(** The status of the record a value refers to. *)
Definition status_at (h : heap) (v : value) : option value :=
  match record_at h v with
  | Some d => dict_get d "status"
  | None => None
  end.

(** A location differs from each of those being rendered. *)
Ltac fresh_loc :=
  rewrite ?not_elem_of_cons; repeat split; try done; apply not_elem_of_nil.

(** ** Sequences of node calls *)

(** The two node functions, by the names the script registers them under. *)
Inductive node_name : Type := process | finalize.

Definition node_fn (k : node_name) : value -> M value :=
  match k with
  | process => process_node
  | finalize => finalize_node
  end.

Definition node_record (k : node_name) : list (string * value) :=
  match k with
  | process => processed_message
  | finalize => finalized_message
  end.

(** Calling node functions one after the other, each on the state the
    previous one returned. *)
Fixpoint chain (fs : list (value -> M value)) (st : value) : M value :=
  match fs with
  | [] => ret st
  | f :: fs' => s <- f st ;; chain fs' s
  end.

(** ** Shapes of malformed states *)

(** Values that cannot be subscripted with a string: everything but a
    dict. *)
Definition not_a_dict (h : heap) (v : value) : bool :=
  match v with
  | VRef l => match h !! l with Some (OList _) => true | _ => false end
  | _ => true
  end.

(** Values without an [append] method: everything but a list. *)
Definition not_a_list (h : heap) (v : value) : bool :=
  match v with
  | VRef l => match h !! l with Some (ODict _) => true | _ => false end
  | _ => true
  end.

(** ** Heaps without dangling references *)




Definition heap_of {A} (o : outcome A) : heap :=
  match o with
  | Ok _ h => h
  | Raise _ h => h
  end.


(** * Properties *)

(** ** Reading states in extended and updated heaps *)

Lemma state_messages_inv (h : heap) (st : value) (lm : loc) (items : list value) :
  state_messages h st = Some (lm, items) <->
  exists ls d, st = VRef ls /\ h !! ls = Some (ODict d) /\
               dict_get d "messages" = Some (VRef lm) /\
               h !! lm = Some (OList items).
Proof.
  unfold state_messages. split.
  - destruct st as [| | | |ls]; try discriminate.
    destruct (h !! ls) as [[|d]|] eqn:Hls; try discriminate.
    destruct (dict_get d "messages") as [[| | | |lm']|] eqn:Hd; try discriminate.
    destruct (h !! lm') as [[its|]|] eqn:Hlm; try discriminate.
    intros [= <- <-]. eauto 10.
  - intros (ls & d & -> & Hls & Hd & Hlm). by rewrite Hls, Hd, Hlm.
Qed.

Lemma state_messages_lt (h : heap) (st : value) (lm : loc) (items : list value) :
  state_messages h st = Some (lm, items) -> lm < length h.
Proof.
  intros (ls & d & _ & _ & _ & Hlm)%state_messages_inv.
  by apply lookup_lt_Some in Hlm.
Qed.

Lemma state_messages_alloc (h : heap) (o : object) (st : value) lm items :
  state_messages h st = Some (lm, items) ->
  state_messages (h ++ [o]) st = Some (lm, items).
Proof.
  intros (ls & d & -> & Hls & Hd & Hlm)%state_messages_inv.
  apply state_messages_inv. exists ls, d.
  repeat split; try done; by apply lookup_app_l_Some.
Qed.

Lemma state_messages_update (h : heap) (st : value) lm items items' :
  state_messages h st = Some (lm, items) ->
  state_messages (<[lm := OList items']> h) st = Some (lm, items').
Proof.
  intros (ls & d & -> & Hls & Hd & Hlm)%state_messages_inv.
  apply state_messages_inv. exists ls, d.
  assert (ls <> lm) by (intros ->; congruence).
  repeat split; try done.
  - by rewrite list_lookup_insert_ne.
  - apply list_lookup_insert_eq. by apply lookup_lt_Some in Hlm.
Qed.

(** ** One appending step *)

Lemma process_node_unfold : process_node = append_step processed_message.
Proof. reflexivity. Qed.

Lemma finalize_node_unfold : finalize_node = append_step finalized_message.
Proof. reflexivity. Qed.

Lemma append_step_ok (rec : list (string * value)) (h : heap) (st : value) lm items :
  state_messages h st = Some (lm, items) ->
  append_step rec st h = Ok st (heap_after h rec lm items).
Proof.
  intros Hst.
  pose proof (state_messages_alloc h (ODict rec) st lm items Hst) as Hst'.
  apply state_messages_inv in Hst' as (ls & d & -> & Hls & Hd & Hlm).
  unfold append_step, bind, alloc, getitem, list_append, ret, heap_after.
  by rewrite Hls, Hd, Hlm.
Qed.

Section heap_after_facts.
Context (h : heap) (rec : list (string * value)) (st : value).
Context (lm : loc) (items : list value).
Hypothesis Hst : state_messages h st = Some (lm, items).

Lemma heap_after_length : length (heap_after h rec lm items) = S (length h).
Proof.
  unfold heap_after. rewrite length_insert, length_app. simpl. lia.
Qed.

Lemma heap_after_messages :
  state_messages (heap_after h rec lm items) st
  = Some (lm, items ++ [VRef (length h)]).
Proof.
  unfold heap_after. apply state_messages_update with (items := items).
  by apply state_messages_alloc.
Qed.

Lemma heap_after_new : heap_after h rec lm items !! length h = Some (ODict rec).
Proof.
  pose proof Hst as Hlt. apply state_messages_lt in Hlt.
  unfold heap_after. rewrite list_lookup_insert_ne by lia.
  rewrite lookup_app_r by lia. by rewrite Nat.sub_diag.
Qed.

Lemma heap_after_frame (l : loc) (o : object) :
  l <> lm -> h !! l = Some o -> heap_after h rec lm items !! l = Some o.
Proof.
  intros Hne Hl. unfold heap_after.
  rewrite list_lookup_insert_ne by done. by apply lookup_app_l_Some.
Qed.

Lemma heap_after_record (v : value) (d : list (string * value)) :
  record_at h v = Some d -> record_at (heap_after h rec lm items) v = Some d.
Proof.
  apply state_messages_inv in Hst as (ls & d0 & _ & _ & _ & Hlm).
  unfold record_at. destruct v as [| | | |l]; try done.
  destruct (h !! l) as [[|d']|] eqn:Hl; try done. intros [= ->].
  rewrite (heap_after_frame l (ODict d)); [done| |done].
  intros ->. congruence.
Qed.
End heap_after_facts.

(** ** The node functions *)

(** C4: on every state that holds a messages list, [process_node] returns
    the state it was given, and in the heap it leaves that same list object
    holds the old items followed by exactly one new reference, to a freshly
    allocated record with content "Processed message" and status
    "processed". *)
Theorem process_node_appends (h : heap) (st : value) (lm : loc) (items : list value) :
  state_messages h st = Some (lm, items) ->
  exists h' new,
    process_node st h = Ok st h' /\
    state_messages h' st = Some (lm, items ++ [new]) /\
    length (items ++ [new]) = S (length items) /\
    record_at h new = None /\
    record_at h' new
    = Some [("content", VStr "Processed message"); ("status", VStr "processed")].
Proof.
  intros Hst. exists (heap_after h processed_message lm items), (VRef (length h)).
  split; [by rewrite process_node_unfold; apply append_step_ok|].
  split; [by apply heap_after_messages|].
  split; [rewrite length_app; simpl; lia|].
  split.
  - unfold record_at. by rewrite lookup_ge_None_2.
  - unfold record_at. by erewrite heap_after_new.
Qed.

Lemma process_node_appends_witness :
  exists h' new,
    process_node (VRef 1) [OList []; ODict [("messages", VRef 0)]] = Ok (VRef 1) h' /\
    state_messages h' (VRef 1) = Some (0, [] ++ [new]) /\
    length ([] ++ [new]) = 1 /\
    record_at [OList []; ODict [("messages", VRef 0)]] new = None /\
    record_at h' new
    = Some [("content", VStr "Processed message"); ("status", VStr "processed")].
Proof.
  apply (process_node_appends [OList []; ODict [("messages", VRef 0)]] (VRef 1) 0 []).
  reflexivity.
Defined.

(** C5: on every state that holds a messages list, [finalize_node] returns
    the state it was given, and in the heap it leaves that same list object
    holds the old items followed by exactly one new reference, to a freshly
    allocated record with content "Finalized message" and status
    "finalized". *)
Theorem finalize_node_appends (h : heap) (st : value) (lm : loc) (items : list value) :
  state_messages h st = Some (lm, items) ->
  exists h' new,
    finalize_node st h = Ok st h' /\
    state_messages h' st = Some (lm, items ++ [new]) /\
    length (items ++ [new]) = S (length items) /\
    record_at h new = None /\
    record_at h' new
    = Some [("content", VStr "Finalized message"); ("status", VStr "finalized")].
Proof.
  intros Hst. exists (heap_after h finalized_message lm items), (VRef (length h)).
  split; [by rewrite finalize_node_unfold; apply append_step_ok|].
  split; [by apply heap_after_messages|].
  split; [rewrite length_app; simpl; lia|].
  split.
  - unfold record_at. by rewrite lookup_ge_None_2.
  - unfold record_at. by erewrite heap_after_new.
Qed.

Lemma finalize_node_appends_witness :
  exists h' new,
    finalize_node (VRef 1) [OList [VNone]; ODict [("messages", VRef 0)]]
    = Ok (VRef 1) h' /\
    state_messages h' (VRef 1) = Some (0, [VNone] ++ [new]) /\
    length ([VNone] ++ [new]) = 2 /\
    record_at [OList [VNone]; ODict [("messages", VRef 0)]] new = None /\
    record_at h' new
    = Some [("content", VStr "Finalized message"); ("status", VStr "finalized")].
Proof.
  apply (finalize_node_appends [OList [VNone]; ODict [("messages", VRef 0)]]
           (VRef 1) 0 [VNone]).
  reflexivity.
Defined.

Lemma appended_record_append_step (rec : list (string * value)) (h : heap)
    (st : value) lm items :
  state_messages h st = Some (lm, items) ->
  appended_record (append_step rec) st h = Some rec.
Proof.
  intros Hst. unfold appended_record.
  rewrite (append_step_ok rec h st lm items Hst).
  rewrite (heap_after_messages h rec st lm items Hst).
  rewrite last_snoc. cbv beta iota delta [record_at].
  by rewrite (heap_after_new h rec st lm items Hst).
Qed.

(** C7: the record a node appends does not depend on the state it runs on:
    on any two states that hold a messages list, whatever the heaps and the
    items already there, [process_node] appends the same record, and so
    does [finalize_node]. *)
Theorem appended_record_independent (h1 h2 : heap) (st1 st2 : value) :
  is_valid_state h1 st1 = true ->
  is_valid_state h2 st2 = true ->
  appended_record process_node st1 h1 = appended_record process_node st2 h2 /\
  appended_record process_node st1 h1
  = Some [("content", VStr "Processed message"); ("status", VStr "processed")] /\
  appended_record finalize_node st1 h1 = appended_record finalize_node st2 h2 /\
  appended_record finalize_node st1 h1
  = Some [("content", VStr "Finalized message"); ("status", VStr "finalized")].
Proof.
  unfold is_valid_state. intros H1 H2.
  destruct (state_messages h1 st1) as [[lm1 items1]|] eqn:E1; [|done].
  destruct (state_messages h2 st2) as [[lm2 items2]|] eqn:E2; [|done].
  rewrite process_node_unfold, finalize_node_unfold.
  rewrite !(appended_record_append_step _ h1 st1 lm1 items1 E1).
  rewrite !(appended_record_append_step _ h2 st2 lm2 items2 E2).
  done.
Qed.

Lemma appended_record_independent_witness :
  let h1 := [OList []; ODict [("messages", VRef 0)]] in
  let h2 := [ODict [("content", VStr "seed"); ("status", VStr "seed")];
             ODict [("user", VInt 7); ("messages", VRef 2)];
             OList [VRef 0; VRef 0]] in
  appended_record process_node (VRef 1) h1 = appended_record process_node (VRef 1) h2 /\
  appended_record process_node (VRef 1) h1
  = Some [("content", VStr "Processed message"); ("status", VStr "processed")] /\
  appended_record finalize_node (VRef 1) h1 = appended_record finalize_node (VRef 1) h2 /\
  appended_record finalize_node (VRef 1) h1
  = Some [("content", VStr "Finalized message"); ("status", VStr "finalized")].
Proof.
  intros h1 h2.
  apply (appended_record_independent h1 h2 (VRef 1) (VRef 1)); reflexivity.
Defined.

(** C9: [process_node] is not idempotent as a state transformer.  Applied
    twice to a state whose messages list has n items it leaves n + 2 items,
    the last two being references to two different record objects with the
    same "Processed message" contents, and the result differs from that of
    applying it once. *)
Theorem process_node_twice (h : heap) (st : value) (lm : loc) (items : list value) :
  state_messages h st = Some (lm, items) ->
  exists h1 h2 p1 p2,
    process_node st h = Ok st h1 /\
    (s <- process_node st ;; process_node s) h = Ok st h2 /\
    state_messages h1 st = Some (lm, items ++ [VRef p1]) /\
    state_messages h2 st = Some (lm, items ++ [VRef p1; VRef p2]) /\
    length (items ++ [VRef p1; VRef p2]) = length items + 2 /\
    p1 <> p2 /\
    record_at h2 (VRef p1) = Some processed_message /\
    record_at h2 (VRef p2) = Some processed_message /\
    (s <- process_node st ;; process_node s) h <> process_node st h.
Proof.
  intros Hst.
  set (h1 := heap_after h processed_message lm items).
  pose proof (heap_after_messages h processed_message st lm items Hst) as Hst1.
  fold h1 in Hst1.
  set (h2 := heap_after h1 processed_message lm (items ++ [VRef (length h)])).
  pose proof (heap_after_messages h1 processed_message st lm _ Hst1) as Hst2.
  fold h2 in Hst2.
  assert (Hlen1 : length h1 = S (length h)) by apply heap_after_length.
  assert (Hrun1 : process_node st h = Ok st h1).
  { rewrite process_node_unfold. by apply append_step_ok. }
  assert (Hrun2 : (s <- process_node st ;; process_node s) h = Ok st h2).
  { unfold bind. rewrite Hrun1. rewrite process_node_unfold. by apply append_step_ok. }
  exists h1, h2, (length h), (length h1).
  rewrite <- app_assoc in Hst2. simpl in Hst2.
  repeat split; try done.
  - rewrite length_app. simpl. lia.
  - lia.
  - apply (heap_after_record h1 processed_message st lm _ Hst1).
    unfold record_at, h1.
    by rewrite (heap_after_new h processed_message st lm items Hst).
  - unfold record_at, h2.
    by rewrite (heap_after_new h1 processed_message st lm _ Hst1).
  - rewrite Hrun1, Hrun2. intros [= Heq].
    apply (f_equal length) in Heq. unfold h2 in Heq.
    rewrite heap_after_length in Heq. lia.
Qed.

Lemma process_node_twice_witness :
  exists h1 h2 p1 p2,
    process_node (VRef 1) [OList []; ODict [("messages", VRef 0)]] = Ok (VRef 1) h1 /\
    (s <- process_node (VRef 1) ;; process_node s)
      [OList []; ODict [("messages", VRef 0)]] = Ok (VRef 1) h2 /\
    state_messages h1 (VRef 1) = Some (0, [] ++ [VRef p1]) /\
    state_messages h2 (VRef 1) = Some (0, [] ++ [VRef p1; VRef p2]) /\
    length ([] ++ [VRef p1; VRef p2]) = length (@nil value) + 2 /\
    p1 <> p2 /\
    record_at h2 (VRef p1) = Some processed_message /\
    record_at h2 (VRef p2) = Some processed_message /\
    (s <- process_node (VRef 1) ;; process_node s)
      [OList []; ODict [("messages", VRef 0)]]
    <> process_node (VRef 1) [OList []; ODict [("messages", VRef 0)]].
Proof.
  apply (process_node_twice [OList []; ODict [("messages", VRef 0)]] (VRef 1) 0 []).
  reflexivity.
Defined.

(** ** The compiled pipeline *)

Lemma app_compiled :
  app = ret (mkCompiledGraph [("process", process_node); ("finalize", finalize_node)]).
Proof. reflexivity. Qed.

Lemma app_invoke_unfold (st : value) (h : heap) :
  app_invoke st h = (s <- process_node st ;; finalize_node s) h.
Proof.
  unfold app_invoke. rewrite app_compiled. unfold bind, ret, invoke. simpl.
  unfold bind, ret. destruct (process_node st h) as [s h1|e h1]; [|done].
  by destruct (finalize_node s h1).
Qed.

Section pipeline_facts.
Context (h : heap) (st : value) (lm : loc) (items : list value).
Hypothesis Hst : state_messages h st = Some (lm, items).

Lemma process_then_finalize :
  (s <- process_node st ;; finalize_node s) h = Ok st (heap_final h lm items).
Proof.
  unfold bind. rewrite process_node_unfold, (append_step_ok _ h st lm items Hst).
  rewrite finalize_node_unfold. apply append_step_ok.
  by apply heap_after_messages.
Qed.

Lemma heap_final_messages :
  state_messages (heap_final h lm items) st
  = Some (lm, items ++ [VRef (length h); VRef (S (length h))]).
Proof.
  unfold heap_final.
  erewrite heap_after_messages by (by apply heap_after_messages).
  by rewrite heap_after_length, <- app_assoc.
Qed.

Lemma heap_final_frame (l : loc) (o : object) :
  l <> lm -> h !! l = Some o -> heap_final h lm items !! l = Some o.
Proof.
  intros Hne Hl. unfold heap_final.
  apply heap_after_frame; [done|]. by apply heap_after_frame.
Qed.

Lemma heap_final_processed :
  heap_final h lm items !! length h = Some (ODict processed_message).
Proof.
  pose proof Hst as Hlt. apply state_messages_lt in Hlt.
  unfold heap_final. apply heap_after_frame; [lia|].
  by apply (heap_after_new h processed_message st).
Qed.

Lemma heap_final_finalized :
  heap_final h lm items !! S (length h) = Some (ODict finalized_message).
Proof.
  unfold heap_final.
  rewrite <- (heap_after_length h processed_message lm items).
  apply (heap_after_new _ finalized_message st).
  by apply heap_after_messages.
Qed.

Lemma heap_final_record (v : value) (d : list (string * value)) :
  record_at h v = Some d -> record_at (heap_final h lm items) v = Some d.
Proof.
  intros Hv. unfold heap_final.
  eapply heap_after_record; [by apply heap_after_messages|].
  by eapply heap_after_record.
Qed.
End pipeline_facts.

(** C2: on a state whose messages list holds N items the pipeline, that is
    [process_node] followed by [finalize_node], returns the same state with
    N + 2 items in the same list object: the first N are the old items in
    their order, then a reference to the processed record, then one to the
    finalized record.  No object of the heap other than the messages list
    is changed, so every record the old items refer to is as it was. *)
Theorem pipeline_appends_two (h : heap) (st : value) (lm : loc) (items : list value) :
  state_messages h st = Some (lm, items) ->
  exists result h' p f,
    app_invoke st h = Ok result h' /\
    (s <- process_node st ;; finalize_node s) h = Ok result h' /\
    state_messages h' result = Some (lm, items ++ [p; f]) /\
    length (items ++ [p; f]) = length items + 2 /\
    take (length items) (items ++ [p; f]) = items /\
    drop (length items) (items ++ [p; f]) = [p; f] /\
    record_at h' p
    = Some [("content", VStr "Processed message"); ("status", VStr "processed")] /\
    record_at h' f
    = Some [("content", VStr "Finalized message"); ("status", VStr "finalized")] /\
    (forall l o, l <> lm -> h !! l = Some o -> h' !! l = Some o) /\
    (forall i v d, items !! i = Some v -> record_at h v = Some d ->
                   (items ++ [p; f]) !! i = Some v /\ record_at h' v = Some d).
Proof.
  intros Hst.
  exists st, (heap_final h lm items), (VRef (length h)), (VRef (S (length h))).
  split; [by rewrite app_invoke_unfold; apply process_then_finalize|].
  split; [by apply process_then_finalize|].
  split; [by apply heap_final_messages|].
  split; [rewrite length_app; simpl; lia|].
  split; [by rewrite take_app_length|].
  split; [by rewrite drop_app_length|].
  split; [unfold record_at; by rewrite (heap_final_processed h st lm items Hst)|].
  split; [unfold record_at; by rewrite (heap_final_finalized h st lm items Hst)|].
  split; [intros l o; by apply (heap_final_frame h lm items)|].
  intros i v d Hi Hv. split.
  - by apply lookup_app_l_Some.
  - by apply (heap_final_record h st lm items Hst).
Qed.

Lemma pipeline_appends_two_witness :
  let h := [ODict [("content", VStr "seed"); ("status", VStr "seed")];
            OList [VRef 0];
            ODict [("messages", VRef 1)]] in
  exists result h' p f,
    app_invoke (VRef 2) h = Ok result h' /\
    (s <- process_node (VRef 2) ;; finalize_node s) h = Ok result h' /\
    state_messages h' result = Some (1, [VRef 0] ++ [p; f]) /\
    length ([VRef 0] ++ [p; f]) = length [VRef 0] + 2 /\
    take (length [VRef 0]) ([VRef 0] ++ [p; f]) = [VRef 0] /\
    drop (length [VRef 0]) ([VRef 0] ++ [p; f]) = [p; f] /\
    record_at h' p
    = Some [("content", VStr "Processed message"); ("status", VStr "processed")] /\
    record_at h' f
    = Some [("content", VStr "Finalized message"); ("status", VStr "finalized")] /\
    (forall l o, l <> 1 -> h !! l = Some o -> h' !! l = Some o) /\
    (forall i v d, [VRef 0] !! i = Some v -> record_at h v = Some d ->
                   ([VRef 0] ++ [p; f]) !! i = Some v /\ record_at h' v = Some d).
Proof.
  intros h. apply (pipeline_appends_two h (VRef 2) 1 [VRef 0]). reflexivity.
Defined.

(** C3: the compiled pipeline executes "process" and then "finalize", and
    each executed step appends exactly one record: after the first step the
    messages list holds the old items and the record with status
    "processed", after the second also the record with status "finalized",
    which therefore sits right behind the processed one in the final
    state. *)
Theorem processed_precedes_finalized (h : heap) (st : value) (lm : loc)
    (items : list value) :
  state_messages h st = Some (lm, items) ->
  exists c s1 h1 result h2 p f,
    app h = Ok c h /\
    map fst (steps c) = ["process"; "finalize"] /\
    run_steps (take 1 (steps c)) st h = Ok s1 h1 /\
    state_messages h1 s1 = Some (lm, items ++ [p]) /\
    app_invoke st h = Ok result h2 /\
    state_messages h2 result = Some (lm, items ++ [p; f]) /\
    status_at h2 p = Some (VStr "processed") /\
    status_at h2 f = Some (VStr "finalized") /\
    (items ++ [p; f]) !! length items = Some p /\
    (items ++ [p; f]) !! S (length items) = Some f.
Proof.
  intros Hst.
  exists (mkCompiledGraph [("process", process_node); ("finalize", finalize_node)]),
    st, (heap_after h processed_message lm items), st, (heap_final h lm items),
    (VRef (length h)), (VRef (S (length h))).
  split; [by rewrite app_compiled|].
  split; [done|].
  split.
  { simpl. unfold bind, ret.
    by rewrite process_node_unfold, (append_step_ok _ h st lm items Hst). }
  split; [by apply heap_after_messages|].
  split; [by rewrite app_invoke_unfold; apply process_then_finalize|].
  split; [by apply heap_final_messages|].
  split.
  { unfold status_at, record_at.
    by rewrite (heap_final_processed h st lm items Hst). }
  split.
  { unfold status_at, record_at.
    by rewrite (heap_final_finalized h st lm items Hst). }
  split.
  - rewrite lookup_app_r by lia. by rewrite Nat.sub_diag.
  - rewrite lookup_app_r by lia. by replace (S (length items) - length items) with 1 by lia.
Qed.

Lemma processed_precedes_finalized_witness :
  let h := [OList []; ODict [("messages", VRef 0)]] in
  exists c s1 h1 result h2 p f,
    app h = Ok c h /\
    map fst (steps c) = ["process"; "finalize"] /\
    run_steps (take 1 (steps c)) (VRef 1) h = Ok s1 h1 /\
    state_messages h1 s1 = Some (0, [] ++ [p]) /\
    app_invoke (VRef 1) h = Ok result h2 /\
    state_messages h2 result = Some (0, [] ++ [p; f]) /\
    status_at h2 p = Some (VStr "processed") /\
    status_at h2 f = Some (VStr "finalized") /\
    ([] ++ [p; f]) !! length (@nil value) = Some p /\
    ([] ++ [p; f]) !! S (length (@nil value)) = Some f.
Proof.
  intros h. apply (processed_precedes_finalized h (VRef 1) 0 []). reflexivity.
Defined.

(** C10: the pipeline works on the caller's own messages list.  After
    [app_invoke] returns, the caller's initial state and the returned state
    name one and the same list object, which already holds the two appended
    records; what the caller's state read before the run is no longer what
    it reads. *)
Theorem invoke_mutates_caller_state (h : heap) (initial : value) (lm : loc)
    (items : list value) :
  state_messages h initial = Some (lm, items) ->
  exists result h' p f,
    app_invoke initial h = Ok result h' /\
    state_messages h' result = Some (lm, items ++ [p; f]) /\
    state_messages h' initial = state_messages h' result /\
    getitem initial "messages" h' = Ok (VRef lm) h' /\
    getitem result "messages" h' = Ok (VRef lm) h' /\
    record_at h' p = Some processed_message /\
    record_at h' f = Some finalized_message /\
    state_messages h' initial <> state_messages h initial.
Proof.
  intros Hst.
  pose proof (heap_final_messages h initial lm items Hst) as Hfin.
  assert (Hget : getitem initial "messages" (heap_final h lm items)
                 = Ok (VRef lm) (heap_final h lm items)).
  { pose proof Hfin as (ls & d & -> & Hls & Hd & _)%state_messages_inv.
    unfold getitem. by rewrite Hls, Hd. }
  exists initial, (heap_final h lm items), (VRef (length h)), (VRef (S (length h))).
  split; [by rewrite app_invoke_unfold; apply process_then_finalize|].
  split; [done|].
  split; [done|].
  split; [done|].
  split; [done|].
  split; [unfold record_at; by rewrite (heap_final_processed h initial lm items Hst)|].
  split; [unfold record_at; by rewrite (heap_final_finalized h initial lm items Hst)|].
  rewrite Hfin, Hst. intros [= Heq].
  apply (f_equal length) in Heq. rewrite length_app in Heq. simpl in Heq. lia.
Qed.

Lemma invoke_mutates_caller_state_witness :
  let h := [OList []; ODict [("messages", VRef 0)]] in
  exists result h' p f,
    app_invoke (VRef 1) h = Ok result h' /\
    state_messages h' result = Some (0, [] ++ [p; f]) /\
    state_messages h' (VRef 1) = state_messages h' result /\
    getitem (VRef 1) "messages" h' = Ok (VRef 0) h' /\
    getitem result "messages" h' = Ok (VRef 0) h' /\
    record_at h' p = Some processed_message /\
    record_at h' f = Some finalized_message /\
    state_messages h' (VRef 1) <> state_messages h (VRef 1).
Proof.
  intros h. apply (invoke_mutates_caller_state h (VRef 1) 0 []). reflexivity.
Defined.

(** ** The end-to-end run *)

(** What [view] reads from a state dict with the single key "messages"
    whose list holds references to two records of string fields. *)
Lemma snapshot_two_records (fuel : nat) (h : heap) (ls lm p f : loc)
    (c1 s1 c2 s2 : string) :
  h !! ls = Some (ODict [("messages", VRef lm)]) ->
  h !! lm = Some (OList [VRef p; VRef f]) ->
  h !! p = Some (ODict [("content", VStr c1); ("status", VStr s1)]) ->
  h !! f = Some (ODict [("content", VStr c2); ("status", VStr s2)]) ->
  snapshot (S (S (S fuel))) h [] (VRef ls)
  = Some (TDict [("messages",
                  TList [TDict [("content", TStr c1); ("status", TStr s1)];
                         TDict [("content", TStr c2); ("status", TStr s2)]])]).
Proof.
  intros Hls Hlm Hp Hf.
  assert (lm <> ls) by (intros ->; congruence).
  assert (p <> lm) by (intros ->; congruence).
  assert (f <> lm) by (intros ->; congruence).
  assert (p <> ls) by (intros ->; congruence).
  assert (f <> ls) by (intros ->; congruence).
  cbn [snapshot]. rewrite Hls.
  rewrite bool_decide_eq_false_2 by fresh_loc.
  cbn [mapM fst snd fmap option_fmap option_map mbind option_bind mret option_ret snapshot].
  rewrite Hlm.
  rewrite bool_decide_eq_false_2 by fresh_loc.
  cbn [mapM fst snd fmap option_fmap option_map mbind option_bind mret option_ret snapshot].
  rewrite Hp.
  rewrite bool_decide_eq_false_2 by fresh_loc.
  cbn [mapM fst snd fmap option_fmap option_map mbind option_bind mret option_ret snapshot].
  rewrite Hf.
  rewrite bool_decide_eq_false_2 by fresh_loc.
  destruct fuel; reflexivity.
Qed.

(** C1: on an initial state of the form [{"messages": []}] the compiled
    pipeline returns a state whose messages list has exactly two items, and
    the state reads as [{"messages": [{"content": "Processed message",
    "status": "processed"}, {"content": "Finalized message", "status":
    "finalized"}]}]. *)
Theorem invoke_on_empty_messages (h : heap) (ls lm : loc) :
  h !! ls = Some (ODict [("messages", VRef lm)]) ->
  h !! lm = Some (OList []) ->
  exists result h' msgs,
    app_invoke (VRef ls) h = Ok result h' /\
    state_messages h' result = Some (lm, msgs) /\
    length msgs = 2 /\
    view h' result
    = Some (TDict
              [("messages",
                TList [TDict [("content", TStr "Processed message");
                              ("status", TStr "processed")];
                       TDict [("content", TStr "Finalized message");
                              ("status", TStr "finalized")]])]).
Proof.
  intros Hls Hlm.
  assert (Hst : state_messages h (VRef ls) = Some (lm, [])).
  { apply state_messages_inv. by exists ls, [("messages", VRef lm)]. }
  exists (VRef ls), (heap_final h lm []), [VRef (length h); VRef (S (length h))].
  split; [by rewrite app_invoke_unfold; apply process_then_finalize|].
  split; [by apply (heap_final_messages h (VRef ls) lm [] Hst)|].
  split; [done|].
  unfold view.
  assert (Hlen : length (heap_final h lm []) = S (S (length h))).
  { unfold heap_final. by rewrite !heap_after_length. }
  rewrite Hlen.
  apply (snapshot_two_records _ _ ls lm (length h) (S (length h))).
  - apply heap_final_frame; [intros ->; congruence | done].
  - pose proof (heap_final_messages h (VRef ls) lm [] Hst) as Hm.
    by apply state_messages_inv in Hm as (? & ? & _ & _ & _ & Hm).
  - by apply (heap_final_processed h (VRef ls) lm []).
  - by apply (heap_final_finalized h (VRef ls) lm []).
Qed.

(** The script's own initial state, built in the empty heap. *)
Lemma invoke_on_empty_messages_witness :
  initial_state [] = Ok (VRef 1) [OList []; ODict [("messages", VRef 0)]] /\
  exists result h' msgs,
    app_invoke (VRef 1) [OList []; ODict [("messages", VRef 0)]] = Ok result h' /\
    state_messages h' result = Some (0, msgs) /\
    length msgs = 2 /\
    view h' result
    = Some (TDict
              [("messages",
                TList [TDict [("content", TStr "Processed message");
                              ("status", TStr "processed")];
                       TDict [("content", TStr "Finalized message");
                              ("status", TStr "finalized")]])]).
Proof.
  split; [reflexivity|].
  apply (invoke_on_empty_messages [OList []; ODict [("messages", VRef 0)]] 1 0);
    reflexivity.
Defined.

(** C6: a normal run of the script writes exactly one line to standard
    output, the label "Final state after graph execution:" followed by the
    rendering of the final state with its two records in insertion order,
    and exits with status 0. *)
Theorem main_prints_final_state :
  stdout main
  = "Final state after graph execution: {'messages': [{'content': 'Processed message', 'status': 'processed'}, {'content': 'Finalized message', 'status': 'finalized'}]}"
    +:+ newline /\
  count_char (ascii_of_nat 10) (stdout main) = 1 /\
  uncaught main = None /\
  exit_code main = 0%Z.
Proof. repeat split; vm_compute; reflexivity. Qed.

(** ** Malformed states *)

Lemma append_step_invalid (rec : list (string * value)) (h : heap) (st : value) :
  dict_get rec "messages" = None ->
  is_valid_state h st = false ->
  exists e h',
    append_step rec st h = Raise e h' /\
    (forall ls d, st = VRef ls -> h !! ls = Some (ODict d) ->
                  dict_get d "messages" = None -> e = KeyError "messages").
Proof.
  intros Hrec Hbad. unfold is_valid_state, state_messages in Hbad.
  unfold append_step, bind, alloc, getitem.
  destruct st as [| | | |ls]; try (eexists _, _; split; [reflexivity|]; intros; discriminate).
  destruct (h !! ls) as [o|] eqn:Hls.
  - rewrite (lookup_app_l_Some _ _ _ _ Hls).
    destruct o as [its|d].
    { eexists _, _; split; [reflexivity|]. intros ? ? [= <-] ?. congruence. }
    destruct (dict_get d "messages") as [v|] eqn:Hd.
    + assert (exists e h', list_append v (VRef (length h)) (h ++ [ODict rec])
                           = Raise e h') as (e & h' & He).
      { unfold list_append. destruct v as [| | | |lm]; try by eauto.
        destruct (h !! lm) as [o|] eqn:Hlm.
        - rewrite (lookup_app_l_Some _ _ _ _ Hlm).
          destruct o; [done | by eauto].
        - apply lookup_ge_None in Hlm.
          destruct (decide (lm = length h)) as [->|Hne].
          + rewrite lookup_app_r by lia. rewrite Nat.sub_diag. simpl. by eauto.
          + rewrite lookup_ge_None_2 by (rewrite length_app; simpl; lia). by eauto. }
      rewrite He. exists e, h'. split; [done|].
      intros ? ? [= <-] ? ?. congruence.
    + eexists _, _; split; [reflexivity|]. done.
  - apply lookup_ge_None in Hls.
    destruct (decide (ls = length h)) as [->|Hne].
    + rewrite lookup_app_r by lia. rewrite Nat.sub_diag. simpl. rewrite Hrec.
      eexists _, _; split; [reflexivity|]. done.
    + rewrite lookup_ge_None_2 by (rewrite length_app; simpl; lia).
      eexists _, _; split; [reflexivity|].
      intros ? ? [= <-] Hl. apply lookup_lt_Some in Hl. lia.
Qed.

(** C8: nothing validates the initial state.  When the value the script
    starts from is not a dict holding a messages list, the first step raises
    and the exception leaves [app_invoke] and the script unchanged: nothing
    is printed and the exit status is 1.  When the state is a dict without
    the "messages" key the exception is [KeyError "messages"]. *)
Theorem malformed_state_unhandled (init : M value) (st : value) (h : heap) :
  init [] = Ok st h ->
  is_valid_state h st = false ->
  exists e h',
    process_node st h = Raise e h' /\
    app_invoke st h = Raise e h' /\
    run_script (script_body init) = mkProcessResult "" (Some e) 1 /\
    exit_code (run_script (script_body init)) <> 0%Z /\
    (forall ls d, st = VRef ls -> h !! ls = Some (ODict d) ->
                  dict_get d "messages" = None -> e = KeyError "messages").
Proof.
  intros Hinit Hbad.
  destruct (append_step_invalid processed_message h st eq_refl Hbad)
    as (e & h' & Hraise & Hkey).
  rewrite <- process_node_unfold in Hraise.
  assert (Hinv : app_invoke st h = Raise e h').
  { rewrite app_invoke_unfold. unfold bind. by rewrite Hraise. }
  assert (Hrun : run_script (script_body init) = mkProcessResult "" (Some e) 1).
  { unfold run_script, script_body. rewrite app_compiled.
    unfold bind at 1. unfold ret at 1. unfold bind at 1. rewrite Hinit.
    unfold bind at 1.
    change (invoke _ st h) with
      (invoke (mkCompiledGraph [("process", process_node); ("finalize", finalize_node)]) st h).
    unfold invoke. simpl. unfold bind at 1. by rewrite Hraise. }
  exists e, h'. rewrite Hrun. repeat split; try done.
Qed.

(** The script started from [{}] instead of [{"messages": []}]. *)
Lemma malformed_state_unhandled_witness :
  alloc (ODict []) [] = Ok (VRef 0) [ODict []] /\
  is_valid_state [ODict []] (VRef 0) = false /\
  exists e h',
    process_node (VRef 0) [ODict []] = Raise e h' /\
    app_invoke (VRef 0) [ODict []] = Raise e h' /\
    run_script (script_body (alloc (ODict []))) = mkProcessResult "" (Some e) 1 /\
    exit_code (run_script (script_body (alloc (ODict [])))) <> 0%Z /\
    (forall ls d, VRef 0 = VRef ls -> [ODict []] !! ls = Some (ODict d) ->
                  dict_get d "messages" = None -> e = KeyError "messages").
Proof.
  split; [reflexivity|]. split; [reflexivity|].
  apply (malformed_state_unhandled (alloc (ODict [])) (VRef 0) [ODict []]);
    reflexivity.
Defined.

(** * Further properties of the node functions *)

(** ** Failure leaves the existing objects alone *)

Lemma append_step_fails_both (rec1 rec2 : list (string * value)) (h : heap)
    (st : value) :
  dict_get rec1 "messages" = None ->
  dict_get rec2 "messages" = None ->
  is_valid_state h st = false ->
  exists e,
    append_step rec1 st h = Raise e (h ++ [ODict rec1]) /\
    append_step rec2 st h = Raise e (h ++ [ODict rec2]).
Proof.
  intros Hr1 Hr2 Hbad. unfold is_valid_state, state_messages in Hbad.
  unfold append_step, bind, alloc, getitem.
  destruct st as [| | | |ls]; try (by eexists).
  destruct (h !! ls) as [o|] eqn:Hls.
  - rewrite !(lookup_app_l_Some _ _ _ _ Hls).
    destruct o as [its|d]; [by eexists|].
    destruct (dict_get d "messages") as [v|] eqn:Hd; [|by eexists].
    unfold list_append. destruct v as [| | | |lm]; try (by eexists).
    destruct (h !! lm) as [o|] eqn:Hlm.
    + rewrite !(lookup_app_l_Some _ _ _ _ Hlm).
      destruct o; [done | by eexists].
    + apply lookup_ge_None in Hlm.
      destruct (decide (lm = length h)) as [->|Hne].
      * rewrite !lookup_app_r by lia. rewrite Nat.sub_diag. simpl. by eexists.
      * rewrite !lookup_ge_None_2 by (rewrite length_app; simpl; lia). by eexists.
  - apply lookup_ge_None in Hls.
    destruct (decide (ls = length h)) as [->|Hne].
    + rewrite !lookup_app_r by lia. rewrite Nat.sub_diag. simpl.
      rewrite Hr1, Hr2. by eexists.
    + rewrite !lookup_ge_None_2 by (rewrite length_app; simpl; lia). by eexists.
Qed.

(** X1: a node that fails has changed nothing the caller can see.  On a
    state that is not a dict holding a messages list both nodes raise, with
    the same exception, and the heap they leave is the old heap followed by
    the one record they built before looking at the state: every object
    that existed before is as it was. *)
Theorem failed_node_changes_nothing (h : heap) (st : value) :
  is_valid_state h st = false ->
  exists e,
    process_node st h = Raise e (h ++ [ODict processed_message]) /\
    finalize_node st h = Raise e (h ++ [ODict finalized_message]) /\
    (forall l o, h !! l = Some o ->
       heap_of (process_node st h) !! l = Some o /\
       heap_of (finalize_node st h) !! l = Some o).
Proof.
  intros Hbad.
  destruct (append_step_fails_both processed_message finalized_message h st
              eq_refl eq_refl Hbad) as (e & H1 & H2).
  rewrite <- process_node_unfold in H1. rewrite <- finalize_node_unfold in H2.
  exists e. rewrite H1, H2. repeat split; try done;
    simpl; by apply lookup_app_l_Some.
Qed.

Lemma failed_node_changes_nothing_witness :
  let h := [ODict [("other", VInt 1)]] in
  is_valid_state h (VRef 0) = false /\
  exists e,
    process_node (VRef 0) h = Raise e (h ++ [ODict processed_message]) /\
    finalize_node (VRef 0) h = Raise e (h ++ [ODict finalized_message]) /\
    (forall l o, h !! l = Some o ->
       heap_of (process_node (VRef 0) h) !! l = Some o /\
       heap_of (finalize_node (VRef 0) h) !! l = Some o).
Proof.
  intros h. split; [reflexivity|].
  apply (failed_node_changes_nothing h (VRef 0)). reflexivity.
Defined.

(** ** Which exception a malformed state gives *)

(** X2: when the state is a dict whose "messages" entry is not a list
    (None, a number, a string, a dict), both nodes raise
    [AttributeError "append"]: the key is found, the value has no such
    method. *)
Theorem messages_not_a_list (h : heap) (ls : loc) (d : list (string * value))
    (v : value) :
  h !! ls = Some (ODict d) ->
  dict_get d "messages" = Some v ->
  not_a_list h v = true ->
  process_node (VRef ls) h
  = Raise (AttributeError "append") (h ++ [ODict processed_message]) /\
  finalize_node (VRef ls) h
  = Raise (AttributeError "append") (h ++ [ODict finalized_message]).
Proof.
  intros Hls Hd Hv.
  unfold process_node, finalize_node, bind, alloc, getitem.
  rewrite !(lookup_app_l_Some _ _ _ _ Hls), Hd.
  unfold list_append, not_a_list in *.
  destruct v as [| | | |l]; try done.
  destruct (h !! l) as [[|d']|] eqn:Hl; try done.
  by rewrite !(lookup_app_l_Some _ _ _ _ Hl).
Qed.

Lemma messages_not_a_list_witness :
  let h := [ODict [("messages", VNone)]] in
  process_node (VRef 0) h
  = Raise (AttributeError "append") (h ++ [ODict processed_message]) /\
  finalize_node (VRef 0) h
  = Raise (AttributeError "append") (h ++ [ODict finalized_message]).
Proof.
  intros h.
  apply (messages_not_a_list h 0 [("messages", VNone)] VNone); reflexivity.
Defined.

(** X3: when the state itself is not a dict (None, a number, a string, a
    list), both nodes raise [TypeError]: the subscript [state["messages"]]
    fails before any list is touched. *)
Theorem state_not_a_dict (h : heap) (st : value) :
  not_a_dict h st = true ->
  process_node st h = Raise TypeError (h ++ [ODict processed_message]) /\
  finalize_node st h = Raise TypeError (h ++ [ODict finalized_message]).
Proof.
  intros Hst. unfold not_a_dict in Hst.
  unfold process_node, finalize_node, bind, alloc, getitem.
  destruct st as [| | | |l]; try done.
  destruct (h !! l) as [[its|]|] eqn:Hl; try done.
  by rewrite !(lookup_app_l_Some _ _ _ _ Hl).
Qed.

Lemma state_not_a_dict_witness :
  let h := [OList [VInt 3]] in
  process_node (VRef 0) h = Raise TypeError (h ++ [ODict processed_message]) /\
  finalize_node (VRef 0) h = Raise TypeError (h ++ [ODict finalized_message]).
Proof.
  intros h. apply (state_not_a_dict h (VRef 0)). reflexivity.
Defined.

(** ** Any sequence of node calls *)

Lemma node_fn_unfold (k : node_name) : node_fn k = append_step (node_record k).
Proof. by destruct k. Qed.

(** X4: however the two nodes are sequenced, each call appends exactly one
    record, in call order.  On a state whose messages list holds [items],
    calling the nodes named by [ks] returns the same state; the list then
    holds [items] followed by one fresh reference per call, the i-th of
    them to the record of the i-th node called; the heap has grown by one
    object per call, and no other object, the state dict included, has
    changed. *)
Theorem chain_appends_in_order (ks : list node_name) (h : heap) (st : value)
    (lm : loc) (items : list value) :
  state_messages h st = Some (lm, items) ->
  exists h',
    chain (map node_fn ks) st h = Ok st h' /\
    state_messages h' st
    = Some (lm, items ++ map VRef (seq (length h) (length ks))) /\
    length h' = length h + length ks /\
    (forall i k, ks !! i = Some k ->
                 record_at h' (VRef (length h + i)) = Some (node_record k)) /\
    (forall l o, l <> lm -> h !! l = Some o -> h' !! l = Some o) /\
    record_at h' st = record_at h st.
Proof.
  revert h items. induction ks as [|k ks IH]; intros h items Hst.
  - exists h. simpl. rewrite app_nil_r, Nat.add_0_r.
    repeat split; try done.
  - pose proof Hst as Hlt. apply state_messages_lt in Hlt.
    set (h1 := heap_after h (node_record k) lm items).
    pose proof (heap_after_messages h (node_record k) st lm items Hst) as Hst1.
    fold h1 in Hst1.
    assert (Hlen1 : length h1 = S (length h)) by apply heap_after_length.
    destruct (IH h1 _ Hst1) as (h' & Hrun & Hmsg & Hlen & Hrec & Hframe & Hdict).
    exists h'. split.
    { simpl. unfold bind. rewrite node_fn_unfold.
      by rewrite (append_step_ok _ h st lm items Hst). }
    split.
    { rewrite Hmsg, Hlen1, <- app_assoc. done. }
    split; [rewrite Hlen, Hlen1; simpl; lia|].
    split.
    { intros [|i] k' Hk; simpl in Hk.
      - injection Hk as <-. rewrite Nat.add_0_r. unfold record_at.
        rewrite (Hframe (length h) (ODict (node_record k))); [done|lia|].
        by apply (heap_after_new h (node_record k) st).
      - replace (length h + S i) with (length h1 + i) by lia. by apply Hrec. }
    split.
    { intros l o Hne Hl. apply Hframe; [done|].
      by apply heap_after_frame. }
    rewrite Hdict.
    apply state_messages_inv in Hst as (ls & d & -> & Hls & _ & Hlm).
    unfold record_at, h1. rewrite Hls.
    rewrite (heap_after_frame h (node_record k) lm items ls (ODict d)); try done.
    intros ->. congruence.
Qed.

Lemma chain_appends_in_order_witness :
  let h := [OList []; ODict [("messages", VRef 0)]] in
  let ks := [finalize; process; process] in
  exists h',
    chain (map node_fn ks) (VRef 1) h = Ok (VRef 1) h' /\
    state_messages h' (VRef 1)
    = Some (0, [] ++ map VRef (seq (length h) (length ks))) /\
    length h' = length h + length ks /\
    (forall i k, ks !! i = Some k ->
                 record_at h' (VRef (length h + i)) = Some (node_record k)) /\
    (forall l o, l <> 0 -> h !! l = Some o -> h' !! l = Some o) /\
    record_at h' (VRef 1) = record_at h (VRef 1).
Proof.
  intros h ks. apply (chain_appends_in_order ks h (VRef 1) 0 []). reflexivity.
Defined.

(** X5: the two nodes do not commute.  Run in either order on the same
    state they leave the same two references in the messages list, but the
    record at the first new position has status "processed" when
    [process_node] ran first and "finalized" when [finalize_node] ran
    first, so the two outcomes differ. *)
Theorem nodes_do_not_commute (h : heap) (st : value) (lm : loc)
    (items : list value) :
  state_messages h st = Some (lm, items) ->
  exists h1 h2 a b,
    (s <- process_node st ;; finalize_node s) h = Ok st h1 /\
    (s <- finalize_node st ;; process_node s) h = Ok st h2 /\
    state_messages h1 st = Some (lm, items ++ [a; b]) /\
    state_messages h2 st = Some (lm, items ++ [a; b]) /\
    status_at h1 a = Some (VStr "processed") /\
    status_at h1 b = Some (VStr "finalized") /\
    status_at h2 a = Some (VStr "finalized") /\
    status_at h2 b = Some (VStr "processed") /\
    (s <- process_node st ;; finalize_node s) h
    <> (s <- finalize_node st ;; process_node s) h.
Proof.
  intros Hst.
  destruct (chain_appends_in_order [process; finalize] h st lm items Hst)
    as (h1 & Hrun1 & Hmsg1 & _ & Hrec1 & _).
  destruct (chain_appends_in_order [finalize; process] h st lm items Hst)
    as (h2 & Hrun2 & Hmsg2 & _ & Hrec2 & _).
  assert (Hc : forall f g : value -> M value,
             chain [f; g] st h = (s <- f st ;; g s) h).
  { intros f g. simpl. unfold bind, ret.
    destruct (f st h) as [s hs|]; [|done]. by destruct (g s hs). }
  simpl map in Hrun1, Hrun2. rewrite Hc in Hrun1, Hrun2.
  pose proof (Hrec1 0 process eq_refl) as Ha1.
  pose proof (Hrec1 1 finalize eq_refl) as Hb1.
  pose proof (Hrec2 0 finalize eq_refl) as Ha2.
  pose proof (Hrec2 1 process eq_refl) as Hb2.
  rewrite Nat.add_0_r in Ha1, Ha2.
  exists h1, h2, (VRef (length h)), (VRef (length h + 1)).
  assert (Hs1 : status_at h1 (VRef (length h)) = Some (VStr "processed"))
    by (unfold status_at; by rewrite Ha1).
  assert (Hs2 : status_at h2 (VRef (length h)) = Some (VStr "finalized"))
    by (unfold status_at; by rewrite Ha2).
  repeat split; try done.
  - rewrite Hmsg1. simpl. by rewrite Nat.add_1_r.
  - rewrite Hmsg2. simpl. by rewrite Nat.add_1_r.
  - unfold status_at. by rewrite Hb1.
  - unfold status_at. by rewrite Hb2.
  - rewrite Hrun1, Hrun2. intros [= ->]. congruence.
Qed.

Lemma nodes_do_not_commute_witness :
  let h := [OList []; ODict [("messages", VRef 0)]] in
  exists h1 h2 a b,
    (s <- process_node (VRef 1) ;; finalize_node s) h = Ok (VRef 1) h1 /\
    (s <- finalize_node (VRef 1) ;; process_node s) h = Ok (VRef 1) h2 /\
    state_messages h1 (VRef 1) = Some (0, [] ++ [a; b]) /\
    state_messages h2 (VRef 1) = Some (0, [] ++ [a; b]) /\
    status_at h1 a = Some (VStr "processed") /\
    status_at h1 b = Some (VStr "finalized") /\
    status_at h2 a = Some (VStr "finalized") /\
    status_at h2 b = Some (VStr "processed") /\
    (s <- process_node (VRef 1) ;; finalize_node s) h
    <> (s <- finalize_node (VRef 1) ;; process_node s) h.
Proof.
  intros h. apply (nodes_do_not_commute h (VRef 1) 0 []). reflexivity.
Defined.

(** ** Shared lists *)

(** X6: a shallow copy of the state does not protect the caller.  When a
    second state dict holds the same list object under "messages", as a
    copy made with [dict(state)] does, a node run on the first state
    returns that first state, and the record it appended is read through
    the second one as well. *)
Theorem append_seen_through_alias (h : heap) (st other : value) (lm : loc)
    (items : list value) :
  state_messages h st = Some (lm, items) ->
  state_messages h other = Some (lm, items) ->
  exists h1 h2 new,
    process_node st h = Ok st h1 /\
    state_messages h1 other = Some (lm, items ++ [new]) /\
    record_at h1 new = Some processed_message /\
    finalize_node st h = Ok st h2 /\
    state_messages h2 other = Some (lm, items ++ [new]) /\
    record_at h2 new = Some finalized_message.
Proof.
  intros Hst Hother.
  exists (heap_after h processed_message lm items),
    (heap_after h finalized_message lm items), (VRef (length h)).
  split; [by rewrite process_node_unfold; apply append_step_ok|].
  split; [by apply heap_after_messages|].
  split; [unfold record_at; by rewrite (heap_after_new h _ st lm items Hst)|].
  split; [by rewrite finalize_node_unfold; apply append_step_ok|].
  split; [by apply heap_after_messages|].
  unfold record_at; by rewrite (heap_after_new h _ st lm items Hst).
Qed.

(** The caller keeps [VRef 1] and hands the nodes the copy [VRef 2]. *)
Lemma append_seen_through_alias_witness :
  let h := [OList []; ODict [("messages", VRef 0)]; ODict [("messages", VRef 0)]] in
  exists h1 h2 new,
    process_node (VRef 2) h = Ok (VRef 2) h1 /\
    state_messages h1 (VRef 1) = Some (0, [] ++ [new]) /\
    record_at h1 new = Some processed_message /\
    finalize_node (VRef 2) h = Ok (VRef 2) h2 /\
    state_messages h2 (VRef 1) = Some (0, [] ++ [new]) /\
    record_at h2 new = Some finalized_message.
Proof.
  intros h. apply (append_seen_through_alias h (VRef 2) (VRef 1) 0 []); reflexivity.
Defined.

(** ** References stay inside the heap *)










(** ** States with a list of their own *)

(** X8: the nodes touch no list but the one of the state they are given.
    A second state whose "messages" entry is a different list object reads
    exactly as before after any sequence of node calls on the first
    state. *)
Theorem other_state_untouched (ks : list node_name) (h : heap)
    (st other : value) (lm lm' : loc) (items items' : list value) :
  state_messages h st = Some (lm, items) ->
  state_messages h other = Some (lm', items') ->
  lm' <> lm ->
  exists h',
    chain (map node_fn ks) st h = Ok st h' /\
    state_messages h' st
    = Some (lm, items ++ map VRef (seq (length h) (length ks))) /\
    state_messages h' other = Some (lm', items').
Proof.
  intros Hst Hother Hne.
  destruct (chain_appends_in_order ks h st lm items Hst)
    as (h' & Hrun & Hmsg & _ & _ & Hframe & _).
  exists h'. split; [done|]. split; [done|].
  apply state_messages_inv in Hother as (ls' & d' & -> & Hls' & Hd' & Hlm').
  apply state_messages_inv in Hst as (ls & d & _ & _ & _ & Hlm).
  apply state_messages_inv. exists ls', d'.
  repeat split; try done.
  - apply Hframe; [|done]. intros ->. congruence.
  - by apply Hframe.
Qed.

Lemma other_state_untouched_witness :
  let h := [OList []; ODict [("messages", VRef 0)];
            OList [VInt 5]; ODict [("messages", VRef 2)]] in
  let ks := [process; finalize] in
  exists h',
    chain (map node_fn ks) (VRef 1) h = Ok (VRef 1) h' /\
    state_messages h' (VRef 1)
    = Some (0, [] ++ map VRef (seq (length h) (length ks))) /\
    state_messages h' (VRef 3) = Some (2, [VInt 5]).
Proof.
  intros h ks.
  apply (other_state_untouched ks h (VRef 1) (VRef 3) 0 2 [] [VInt 5]);
    [reflexivity | reflexivity | lia].
Defined.
